(** * yt-search-lib: the CORS relay (proxy-server.js) and the search pipeline

    The relay is embedded from [proxy-server.js].  The search pipeline
    (parser, cache store, orchestrator) lives in the library sources, which
    are not part of the verified tree; it is modelled from the
    specification and every such definition says so. *)

From Stdlib Require Import ZArith Lia Strings.Byte Ascii String List Sorted.
From stdpp Require Import gmap strings list pretty sorting.
Import ListNotations.

Local Open Scope Z_scope.

(** ** Bytes and text

    Node hands the relay its bodies as [Buffer] chunks.  Both handlers
    accumulate them with [body += chunk.toString()] / [data += chunk], which
    decodes every chunk as UTF-8 on its own, and [req.write] / [res.end]
    encode the accumulated string as UTF-8 again.  Text is a list of code
    points. *)

Module Text.

Definition text := list Z.

Definition byte_val (b : byte) : Z := Z.of_N (Byte.to_N b).

Definition byte_of (z : Z) : byte :=
  match Byte.of_N (Z.to_N z) with
  | Some b => b
  | None => Byte.x00
  end.

(** U+FFFD, emitted by the decoder for every ill-formed subsequence. *)
Definition REPLACEMENT : Z := 0xFFFD.

Definition scalar (c : Z) : Prop :=
  0 <= c < 0xD800 \/ 0xE000 <= c < 0x110000.

(** The decoder is the usual five-field automaton: how many continuation
    bytes are still expected, the code point assembled so far, and the
    range the next continuation byte has to lie in. *)
Record dstate := DState { need : nat; acc : Z; lo : Z; hi : Z }.

Definition d0 : dstate := DState 0 0 0x80 0xBF.

Definition lead (b : Z) : dstate * list Z :=
  if b <=? 0x7F then (d0, [b])
  else if (0xC2 <=? b) && (b <=? 0xDF) then (DState 1 (b - 0xC0) 0x80 0xBF, [])
  else if (0xE0 <=? b) && (b <=? 0xEF) then
    (DState 2 (b - 0xE0) (if b =? 0xE0 then 0xA0 else 0x80)
                         (if b =? 0xED then 0x9F else 0xBF), [])
  else if (0xF0 <=? b) && (b <=? 0xF4) then
    (DState 3 (b - 0xF0) (if b =? 0xF0 then 0x90 else 0x80)
                         (if b =? 0xF4 then 0x8F else 0xBF), [])
  else (d0, [REPLACEMENT]).

Definition step (st : dstate) (b : Z) : dstate * list Z :=
  match need st with
  | O => lead b
  | S n =>
      if (lo st <=? b) && (b <=? hi st) then
        let cp := acc st * 64 + (b - 0x80) in
        match n with
        | O => (d0, [cp])
        | S _ => (DState n cp 0x80 0xBF, [])
        end
      else
        (* the byte is put back and read again as a lead byte *)
        let '(st', out) := lead b in (st', REPLACEMENT :: out)
  end.

Fixpoint decode_from (st : dstate) (bs : list byte) : text :=
  match bs with
  | [] => match need st with O => [] | S _ => [REPLACEMENT] end
  | b :: bs' =>
      let '(st', out) := step st (byte_val b) in
      out ++ decode_from st' bs'
  end.

(** [chunk.toString()] on a Buffer. *)
Definition utf8_decode (bs : list byte) : text := decode_from d0 bs.

Definition encode_cp (c : Z) : list byte :=
  if c <? 0x80 then [byte_of c]
  else if c <? 0x800 then
    [byte_of (0xC0 + c / 64); byte_of (0x80 + c mod 64)]
  else if c <? 0x10000 then
    if (0xD800 <=? c) && (c <? 0xE000) then
      [Byte.xef; Byte.xbf; Byte.xbd]
    else
      [byte_of (0xE0 + c / 4096); byte_of (0x80 + (c / 64) mod 64);
       byte_of (0x80 + c mod 64)]
  else
    [byte_of (0xF0 + c / 262144); byte_of (0x80 + (c / 4096) mod 64);
     byte_of (0x80 + (c / 64) mod 64); byte_of (0x80 + c mod 64)].

(** What [req.write(str)] and [res.end(str)] put on the wire. *)
Definition utf8_encode (t : text) : list byte := flat_map encode_cp t.

(** [Buffer.byteLength(str)]. *)
Definition byteLength (t : text) : nat := length (utf8_encode t).

(** A chunk is well formed when it is the encoding of some text made of
    scalar values. *)
Definition well_formed (bs : list byte) : Prop :=
  exists t : text, Forall scalar t /\ bs = utf8_encode t.

(** The string a handler ends up with after [acc += chunk] for every
    chunk in turn, starting from the empty string. *)
Definition accumulate (chunks : list (list byte)) : text :=
  fold_left (fun acc chunk => acc ++ utf8_decode chunk) chunks [].

End Text.

(** ** JavaScript values and string helpers used by the relay *)

Module Js.

(** The values [query.url] and [targetUrl] range over: [url.parse(_, true)]
    yields [undefined] for an absent parameter, a string for a parameter
    given once and an array of strings for a repeated one. *)
Inductive value :=
| JUndefined
| JString (s : string)
| JArray (vs : list string).

Definition truthy (v : value) : bool :=
  match v with
  | JUndefined => false
  | JString s => negb (String.eqb s "")
  | JArray _ => true
  end.

(** [a || b] *)
Definition or_else (a b : value) : value := if truthy a then a else b.

Fixpoint join (sep : string) (vs : list string) : string :=
  match vs with
  | [] => ""
  | [v] => v
  | v :: vs' => v +:+ sep +:+ join sep vs'
  end.

(** [String(v)], the conversion [new URL(v)] applies to its argument. *)
Definition to_string (v : value) : string :=
  match v with
  | JUndefined => "undefined"
  | JString s => s
  | JArray vs => join "," vs
  end.

(** [s.includes(sub)] *)
Fixpoint includes (s sub : string) : bool :=
  String.prefix sub s ||
  match s with
  | EmptyString => false
  | String _ s' => includes s' sub
  end.

(** [s.startsWith(p)] *)
Definition startsWith (s p : string) : bool := String.prefix p s.

(** [s.split(sep)] for a non-empty separator.  [skip] counts the characters
    of a separator occurrence that are still to be dropped, [cur] is the
    piece being collected. *)
Fixpoint split_go (sep : string) (skip : nat) (cur s : string) : list string :=
  match s with
  | EmptyString => [cur]
  | String c s' =>
      match skip with
      | S k => split_go sep k cur s'
      | O =>
          if String.prefix sep s
          then cur :: split_go sep (String.length sep - 1) "" s'
          else split_go sep 0 (cur +:+ String c "") s'
      end
  end.

Definition split (s sep : string) : list string := split_go sep 0 "" s.

(** [xs[i]] on an array of strings *)
Definition index (xs : list string) (i : nat) : value :=
  match xs !! i with
  | Some s => JString s
  | None => JUndefined
  end.

Definition lower_ascii (c : ascii) : ascii :=
  let n := nat_of_ascii c in
  if (65 <=? n)%nat && (n <=? 90)%nat then ascii_of_nat (n + 32) else c.

Fixpoint toLowerCase (s : string) : string :=
  match s with
  | EmptyString => EmptyString
  | String c s' => String (lower_ascii c) (toLowerCase s')
  end.

End Js.

(** ** The platform the relay runs on

    [new URL(s)], [url.parse(s, true)] and [decodeURIComponent] are Node's,
    not the repository's.  The relay is embedded over any implementation of
    them; [None] stands for a thrown exception.  [url_parse] covers the
    request targets [url.parse] returns on; the few it throws on never
    reach the listener's own branches. *)

Record URLRecord := {
  protocol : string;
  hostname : string;
  port : string;
  url_pathname : string;
  search : string;
}.

Record UrlObject := {
  pathname : option string;       (* [null] when the target has no path *)
  query_url : Js.value;           (* [query.url] *)
}.

Class Platform := {
  URL_new : string -> option URLRecord;
  url_parse : string -> UrlObject;
  decodeURIComponent : string -> option string;
  decodeURIComponent_empty : decodeURIComponent "" = Some "";
}.

(** ** proxy-server.js *)

Module Relay.
Import Text Js.

Definition ALLOWED_HOSTS : list string :=
  ["www.youtube.com"; "youtube.com"; "youtubei.googleapis.com"].

Definition USER_AGENT : string :=
  "Mozilla/5.0 (Windows NT 10.0; Win64; x64) AppleWebKit/537.36 (KHTML, like Gecko) Chrome/91.0.4472.124 Safari/537.36".

(** Validates if a URL is allowed. *)
Definition isAllowedUrl `{Platform} (targetUrl : value) : bool :=
  match URL_new (to_string targetUrl) with
  | Some parsedUrl =>
      existsb (fun host => includes (hostname parsedUrl) host) ALLOWED_HOSTS
  | None => false
  end.

Inductive protocol_module := ModHttp | ModHttps.

Inductive port_value :=
| PortString (s : string)
| PortNumber (n : Z).

Record request_options := {
  opt_hostname : string;
  opt_port : port_value;
  opt_path : string;
  opt_method : string;
  opt_headers : list (string * string);
  opt_content_length : option nat;    (* [headers['Content-Length']] *)
}.

(** One request sent to the upstream: the module it went through, its
    options and the bytes written to it. *)
Record upstream_request := {
  up_module : protocol_module;
  up_options : request_options;
  up_written : list byte;
}.

(** What the network does with an upstream request: an ['error'] event, or
    a response delivered in chunks up to its ['end'].  These are the two
    ways [fetchUrl]'s callback gets to run; an upstream that stalls or is
    cut before ['end'] runs it never, and has no outcome here. *)
Inductive upstream_result :=
| UpError (message : string)
| UpResponse (statusCode : Z) (headers : list (string * string))
             (chunks : list (list byte)).

Definition network := upstream_request -> upstream_result.

(** The arguments [fetchUrl] hands to its callback. *)
Inductive callback_args :=
| CbError (message : string)
| CbResponse (statusCode : Z) (headers : list (string * string)) (body : text).

(** Fetches from a target URL.  [None] is a synchronous exception:
    [targetUrl.startsWith] on an array, or [new URL] throwing. *)
Definition fetchUrl `{Platform} (net : network) (targetUrl : value) (body : text)
  : option (upstream_request * callback_args) :=
  match targetUrl with
  | JString target =>
      let protocol_mod := if startsWith target "https" then ModHttps else ModHttp in
      match URL_new target with
      | None => None
      | Some parsedUrl =>
          let options := {|
            opt_hostname := hostname parsedUrl;
            opt_port :=
              if negb (String.eqb (port parsedUrl) "")
              then PortString (port parsedUrl)
              else if String.eqb (protocol parsedUrl) "https:"
                   then PortNumber 443 else PortNumber 80;
            opt_path := url_pathname parsedUrl +:+ search parsedUrl;
            opt_method := "POST";
            opt_headers :=
              [("Content-Type", "application/json"); ("User-Agent", USER_AGENT)];
            opt_content_length :=
              match body with [] => None | _ :: _ => Some (byteLength body) end;
          |} in
          let req := {|
            up_module := protocol_mod;
            up_options := options;
            up_written := match body with [] => [] | _ :: _ => utf8_encode body end;
          |} in
          match net req with
          | UpError message => Some (req, CbError message)
          | UpResponse statusCode headers chunks =>
              Some (req, CbResponse statusCode headers (accumulate chunks))
          end
      end
  | _ => None
  end.

(** The body handed to [res.end]: nothing, [JSON.stringify({ error: msg })],
    or a string, kept as the bytes it is sent as. *)
Inductive payload :=
| NoBody
| ErrorJson (msg : string)
| Raw (bytes : list byte).

(** [res]: the headers set so far (Node keys them by lower-cased name) and
    the status line. *)
Record ServerResponse := {
  res_headers : gmap string string;
  res_status : Z;
}.

Definition new_response : ServerResponse :=
  {| res_headers := ∅; res_status := 200 |}.

Definition setHeader (name value : string) (res : ServerResponse) : ServerResponse :=
  {| res_headers := <[toLowerCase name := value]> (res_headers res);
     res_status := res_status res |}.

(** [res.writeHead(status, headers)]: the given headers are merged over the
    ones set with [setHeader]. *)
Definition writeHead (status : Z) (hdrs : list (string * string))
    (res : ServerResponse) : ServerResponse :=
  {| res_headers :=
       fold_left (fun m kv => <[toLowerCase (fst kv) := snd kv]> m) hdrs (res_headers res);
     res_status := status |}.

Record response := {
  status : Z;
  headers : gmap string string;
  body : payload;
}.

(** [res.end(body)] *)
Definition finish (body : payload) (res : ServerResponse) : response :=
  {| status := res_status res; headers := res_headers res; body := body |}.

(** What one request leads to: a response together with the upstream
    requests made on the way, or an exception nobody catches (no response
    is written). *)
Inductive outcome :=
| Responded (r : response) (upstream : list upstream_request)
| Uncaught.

Record IncomingMessage := {
  method : string;
  url : string;
  chunks : list (list byte);
}.

Definition JSON_HEADERS : list (string * string) :=
  [("Content-Type", "application/json")].

(** The request listener given to [http.createServer]. *)
Definition server `{Platform} (net : network) (req : IncomingMessage) : outcome :=
  (* Set CORS headers *)
  let res := setHeader "Access-Control-Allow-Origin" "*" new_response in
  let res := setHeader "Access-Control-Allow-Methods" "GET, POST, OPTIONS" res in
  let res := setHeader "Access-Control-Allow-Headers" "Content-Type" res in
  (* Handle preflight requests *)
  if String.eqb (method req) "OPTIONS" then
    Responded (finish NoBody (writeHead 200 [] res)) []
  else
    (* Parse incoming request *)
    let parsedUrl := url_parse (url req) in
    let query_url := query_url parsedUrl in
    (* Handle proxy endpoint *)
    match pathname parsedUrl with
    | Some pathname =>
        if String.eqb pathname "/proxy" || String.eqb pathname "/proxy/"
           || String.eqb pathname ""
        then
          let targetUrl :=
            if truthy query_url then Some query_url
            else JString <$>
                 decodeURIComponent
                   (to_string (or_else (index (split pathname "/proxy/") 1) (JString ""))) in
          match targetUrl with
          | None => Uncaught
          | Some targetUrl =>
              if negb (truthy targetUrl) then
                Responded (finish (ErrorJson "Missing url parameter")
                             (writeHead 400 JSON_HEADERS res)) []
              else if negb (isAllowedUrl targetUrl) then
                Responded (finish (ErrorJson "URL not allowed")
                             (writeHead 403 JSON_HEADERS res)) []
              else
                (* Read request body *)
                let body := accumulate (chunks req) in
                match fetchUrl net targetUrl body with
                | None => Uncaught
                | Some (up, CbError message) =>
                    Responded (finish (ErrorJson message)
                                 (writeHead 500 JSON_HEADERS res)) [up]
                | Some (up, CbResponse statusCode _ data) =>
                    Responded
                      (finish (Raw (utf8_encode data))
                         (writeHead statusCode
                            [("Content-Type", "application/json");
                             ("Access-Control-Allow-Origin", "*")] res)) [up]
                end
          end
        else
          Responded (finish (ErrorJson "Not found")
                       (writeHead 404 JSON_HEADERS res)) []
    | None =>
        Responded (finish (ErrorJson "Not found")
                     (writeHead 404 JSON_HEADERS res)) []
    end.

Definition upstream_requests (o : outcome) : list upstream_request :=
  match o with
  | Responded _ ups => ups
  | Uncaught => []
  end.

Definition response_of (o : outcome) : option response :=
  match o with
  | Responded r _ => Some r
  | Uncaught => None
  end.

(** [res] once the listener has set its three CORS headers. *)
Definition cors_response : ServerResponse :=
  setHeader "Access-Control-Allow-Headers" "Content-Type"
    (setHeader "Access-Control-Allow-Methods" "GET, POST, OPTIONS"
       (setHeader "Access-Control-Allow-Origin" "*" new_response)).

(** The JSON error responses of the listener. *)
Definition error_reply (status : Z) (msg : string) : response :=
  finish (ErrorJson msg) (writeHead status JSON_HEADERS cors_response).

(** The paths on which the listener takes the proxy branch. *)
Definition matched (p : option string) : Prop :=
  p = Some "/proxy" ∨ p = Some "/proxy/" ∨ p = Some "".

(** [s] has an occurrence of [sub]. *)
Definition contains (s sub : string) : Prop :=
  ∃ pre suf : string, s = pre +:+ sub +:+ suf.

(** The name Node stores the CORS origin header under. *)
Definition ACAO : string := "access-control-allow-origin".

End Relay.

(** ** A reference platform

    A small executable stand-in for Node on the inputs the relay is used
    with: origin-form request targets ([/path?query]) and plain
    [http(s)://host[:port][/path][?query]] URLs with a lower-case host.
    It is what the concrete runs below are evaluated on; the general
    theorems hold for every [Platform]. *)

Module Node.
Import Js.

(** Cuts [s] at the first occurrence of [c]: the part before it and, when
    [c] occurs, the part after it. *)
Fixpoint cut (c : ascii) (s : string) : string * option string :=
  match s with
  | EmptyString => (EmptyString, None)
  | String a s' =>
      if Ascii.eqb a c then (EmptyString, Some s')
      else let '(before, after) := cut c s' in (String a before, after)
  end.

Definition hex_digit (c : ascii) : option nat :=
  let n := nat_of_ascii c in
  if (48 <=? n)%nat && (n <=? 57)%nat then Some (n - 48)%nat
  else if (65 <=? n)%nat && (n <=? 70)%nat then Some (n - 55)%nat
  else if (97 <=? n)%nat && (n <=? 102)%nat then Some (n - 87)%nat
  else None.

(** [querystring.unescape]: [%XX] is decoded, [+] is a space, anything
    malformed is kept as it is. *)
Fixpoint unescape (s : string) : string :=
  match s with
  | EmptyString => EmptyString
  | String c s' =>
      if Ascii.eqb c "+" then String " " (unescape s')
      else if Ascii.eqb c "%" then
        match s' with
        | String h (String l rest) =>
            match hex_digit h, hex_digit l with
            | Some a, Some b => String (ascii_of_nat (16 * a + b)) (unescape rest)
            | _, _ => String c (unescape s')
            end
        | _ => String c (unescape s')
        end
      else String c (unescape s')
  end.

(** The strict variant behind [decodeURIComponent]: a [%] that does not
    start an escape is a [URIError], and [+] stays a plus sign. *)
Fixpoint decode_strict (s : string) : option string :=
  match s with
  | EmptyString => Some EmptyString
  | String c s' =>
      if Ascii.eqb c "%" then
        match s' with
        | String h (String l rest) =>
            match hex_digit h, hex_digit l with
            | Some a, Some b => String (ascii_of_nat (16 * a + b)) <$> decode_strict rest
            | _, _ => None
            end
        | _ => None
        end
      else String c <$> decode_strict s'
  end.

(** The values of the [url] parameter in a query string. *)
Definition url_params (qs : string) : list string :=
  omap (fun pair =>
          let '(k, v) := cut "=" pair in
          if String.eqb (unescape k) "url"
          then Some (unescape (default "" v)) else None)
       (split qs "&").

Definition parse_target (target : string) : UrlObject :=
  let '(no_hash, _) := cut "#" target in
  let '(path, qs) := cut "?" no_hash in
  {| pathname := if String.eqb path "" then None else Some path;
     query_url :=
       match url_params (default "" qs) with
       | [] => JUndefined
       | [v] => JString v
       | vs => JArray vs
       end |}.

Definition host_char (c : ascii) : bool :=
  let n := nat_of_ascii c in
  ((97 <=? n)%nat && (n <=? 122)%nat) || ((48 <=? n)%nat && (n <=? 57)%nat)
  || Ascii.eqb c "." || Ascii.eqb c "-".

Fixpoint all_chars (p : ascii -> bool) (s : string) : bool :=
  match s with
  | EmptyString => true
  | String c s' => p c && all_chars p s'
  end.

Definition digit_char (c : ascii) : bool :=
  let n := nat_of_ascii c in (48 <=? n)%nat && (n <=? 57)%nat.

(** Splits what follows [scheme://] into authority and the rest, which
    starts at the first [/], [?] or [#]. *)
Fixpoint authority (s : string) : string * string :=
  match s with
  | EmptyString => (EmptyString, EmptyString)
  | String c s' =>
      if Ascii.eqb c "/" || Ascii.eqb c "?" || Ascii.eqb c "#" then (EmptyString, s)
      else let '(a, rest) := authority s' in (String c a, rest)
  end.

Definition parse_after_scheme (scheme default_port rest : string) : option URLRecord :=
  let '(auth, tail) := authority rest in
  let '(host, port) := cut ":" auth in
  let port := default "" port in
  let '(no_hash, _) := cut "#" tail in
  let '(path, qs) := cut "?" no_hash in
  if negb (String.eqb host "") && all_chars host_char host && all_chars digit_char port
  then Some {| protocol := scheme;
               hostname := host;
               port := if String.eqb port default_port then "" else port;
               url_pathname := if String.eqb path "" then "/" else path;
               search := match qs with
                         | Some q => if String.eqb q "" then "" else "?" +:+ q
                         | None => ""
                         end |}
  else None.

Fixpoint drop_prefix (p s : string) : option string :=
  match p, s with
  | EmptyString, _ => Some s
  | String a p', String b s' => if Ascii.eqb a b then drop_prefix p' s' else None
  | String _ _, EmptyString => None
  end.

Definition new_URL (s : string) : option URLRecord :=
  match drop_prefix "https://" s with
  | Some rest => parse_after_scheme "https:" "443" rest
  | None =>
      match drop_prefix "http://" s with
      | Some rest => parse_after_scheme "http:" "80" rest
      | None => None
      end
  end.

#[export] Instance reference : Platform := {|
  URL_new := new_URL;
  url_parse := parse_target;
  decodeURIComponent := decode_strict;
  decodeURIComponent_empty := eq_refl;
|}.

End Node.

(** ** The result parser *)

Module Parser.

(** Modelled from the spec: the three variants of a result (section 3);
    the library's sources are not in the tree. *)
Inductive variant := Video | Channel | Playlist.

(** Modelled from the spec: the [type] of a query (section 3). *)
Inductive query_type := TypeVideo | TypeChannel | TypePlaylist | TypeAll.

(** Modelled from the spec: the library's [SearchQuery] (its source is not
    in the tree): [{ text, type, limit }], with [limit] a count. *)
Record SearchQuery := {
  text : string;
  type : query_type;
  limit : nat;
}.

(** Modelled from the spec: what each variant of the library's
    [SearchResult] adds to the common fields (section 3): a video its
    [author], a channel its [subscriberCount], a playlist its [videoCount]. *)
Inductive variant_fields :=
| VideoFields (author : option string)
| ChannelFields (subscriberCount : option string)
| PlaylistFields (videoCount : option string).

(** Modelled from the spec: the library's [SearchResult] (section 3):
    common fields [id], [title], [link], [thumbnail] and the fields of the
    variant; all but [id], [title], [link] are optional. *)
Record SearchResult := {
  id : string;
  title : string;
  link : string;
  thumbnail : option string;
  fields : variant_fields;
}.

(** The variant a result belongs to. *)
Definition kind (r : SearchResult) : variant :=
  match fields r with
  | VideoFields _ => Video
  | ChannelFields _ => Channel
  | PlaylistFields _ => Playlist
  end.

(** Modelled from the spec: what a leaf renderer of the upstream response
    carries, every field possibly missing. *)
Record RawLeaf := {
  raw_id : option string;
  raw_title : option string;
  raw_link : option string;
  raw_thumbnail : option string;
  raw_author : option string;
  raw_subscriberCount : option string;
  raw_videoCount : option string;
}.

(** Modelled from the spec: the library's [RendererNode] (section 3 and
    design note 1): a closed set of node kinds, container, the three known
    leaves, and everything else. *)
#[warnings="-register-all"]
Inductive RendererNode :=
| ContainerNode (children : list RendererNode)
| LeafNode (v : variant) (leaf : RawLeaf)
| UnknownNode.

(** Modelled from the spec: the test applied to [id], [title] and [link]
    (section 4.2, step 2). *)
Definition non_empty (s : string) : bool := negb (String.eqb s "").

(** Modelled from the spec: a required field of a leaf, present and not
    empty (section 4.2, step 2). *)
Definition required (f : option string) : option string :=
  match f with
  | Some s => if non_empty s then Some s else None
  | None => None
  end.

(** Modelled from the spec: step 2 of the parser (section 4.2): extract the
    common and variant-specific fields; a leaf whose [id], [title] or [link]
    is missing or empty is dropped. *)
Definition extract (v : variant) (leaf : RawLeaf) : option SearchResult :=
  i ← required (raw_id leaf);
  t ← required (raw_title leaf);
  l ← required (raw_link leaf);
  Some {| id := i; title := t; link := l;
          thumbnail := raw_thumbnail leaf;
          fields := match v with
                    | Video => VideoFields (raw_author leaf)
                    | Channel => ChannelFields (raw_subscriberCount leaf)
                    | Playlist => PlaylistFields (raw_videoCount leaf)
                    end |}.

(** Modelled from the spec: a leaf variant matches the requested [type],
    or the type is [all] (section 4.2, step 2). *)
Definition matches (ty : query_type) (v : variant) : bool :=
  match ty, v with
  | TypeAll, _ => true
  | TypeVideo, Video => true
  | TypeChannel, Channel => true
  | TypePlaylist, Playlist => true
  | _, _ => false
  end.

(** Modelled from the spec: the order-preserving depth-first traversal of
    section 4.2: a matching known leaf yields its result, a container is
    entered and yields nothing itself, an unknown node is skipped. *)
Fixpoint walk (ty : query_type) (node : RendererNode) : list SearchResult :=
  match node with
  | ContainerNode children => flat_map (walk ty) children
  | LeafNode v leaf =>
      if matches ty v then
        match extract v leaf with
        | Some r => [r]
        | None => []
        end
      else []
  | UnknownNode => []
  end.

(** Modelled from the spec: deduplication by [id], keeping the first
    occurrence in traversal order.  [seen] holds the ids already emitted. *)
Fixpoint dedup_from (seen : gset string) (rs : list SearchResult) : list SearchResult :=
  match rs with
  | [] => []
  | r :: rs' =>
      if decide (id r ∈ seen) then dedup_from seen rs'
      else r :: dedup_from ({[ id r ]} ∪ seen) rs'
  end.

Definition dedup (rs : list SearchResult) : list SearchResult := dedup_from ∅ rs.

(** Modelled from the spec: [parse(rawResponse, query)] (section 4.2):
    traverse and filter, deduplicate, then truncate to [query.limit]. *)
Definition parse (raw : RendererNode) (query : SearchQuery) : list SearchResult :=
  take (limit query) (dedup (walk (type query) raw)).

(** The other order of the last two steps, for comparison. *)
Definition parse_truncating_first (raw : RendererNode) (query : SearchQuery)
  : list SearchResult :=
  dedup (take (limit query) (walk (type query) raw)).



End Parser.

(** ** The cache store *)

Module CacheStore.
Import Parser.

(** Modelled from the spec: the library's [CacheEntry] (section 3). *)
Record CacheEntry := {
  key : string;
  results : list SearchResult;
  insertedAt : Z;
  expiresAt : Z;
}.

(** Modelled from the spec: the persistence format of section 4.3: the
    index is one value, the ordered list of keys; each entry is a value of
    its own, [{results, insertedAt, expiresAt}]. *)
Inductive stored :=
| StoredIndex (keys : list string)
| StoredEntry (results : list SearchResult) (insertedAt expiresAt : Z).

(** Modelled from the spec: the fixed namespace of the persistence keys and
    the key the index is stored under (sections 4.3 and 6); the integration
    tests read the index under [yt_search_keys]. *)
Definition NAMESPACE : string := "yt_search".
Definition INDEX_KEY : string := "yt_search_keys".

(** Modelled from the spec: the backing key of an entry, [namespace:key]
    (section 4.3). *)
Definition entry_key (k : string) : string := NAMESPACE +:+ ":" +:+ k.

(** Modelled from the spec: the store of section 4.3: the resident entries,
    the index of resident keys ordered from most to least recently used,
    and the durable key-value backing they are mirrored to. *)
Record store := {
  entries : gmap string CacheEntry;
  index : list string;
  backing : gmap string stored;
}.

Definition empty_store : store :=
  {| entries := ∅; index := []; backing := ∅ |}.

(** The index without one key. *)
Definition without (k : string) (ks : list string) : list string :=
  filter (fun k' => k' ≠ k) ks.

(** Modelled from the spec: eviction (section 4.3): the key leaves the
    index, the entries and the backing, and the index is mirrored. *)
Definition evict (k : string) (st : store) : store :=
  let index' := without k (index st) in
  {| entries := delete k (entries st);
     index := index';
     backing := <[INDEX_KEY := StoredIndex index']> (delete (entry_key k) (backing st)) |}.

(** Modelled from the spec: the promotion implicit in a successful [get]
    (section 4.3): the key becomes the most recently used. *)
Definition touch (k : string) (st : store) : store :=
  let index' := k :: without k (index st) in
  {| entries := entries st;
     index := index';
     backing := <[INDEX_KEY := StoredIndex index']> (backing st) |}.

(** Modelled from the spec: [get(key)] (section 4.3): absent for an unknown
    key; an entry with [now >= expiresAt] is evicted and absent; a live
    entry is returned and its key promoted. *)
Definition get (k : string) (now : Z) (st : store) : option CacheEntry * store :=
  match entries st !! k with
  | None => (None, st)
  | Some e =>
      if expiresAt e <=? now then (None, evict k st)
      else (Some e, touch k st)
  end.

(** Modelled from the spec: eviction of the least recently used key, the
    last one of the index (section 4.3). *)
Definition evict_lru (st : store) : store :=
  match last (index st) with
  | Some k => evict k st
  | None => st
  end.

(** Modelled from the spec: evict in least-recently-used order until back
    at capacity (section 4.3). *)
Definition evict_excess (max : nat) (st : store) : store :=
  Nat.iter (length (index st) - max) evict_lru st.

(** Modelled from the spec: the first half of [put] (section 4.3): create
    or overwrite the entry and mark its key most recently used. *)
Definition insert_entry (k : string) (rs : list SearchResult) (ttl now : Z)
    (st : store) : store :=
  let e := {| key := k; results := rs; insertedAt := now; expiresAt := now + ttl |} in
  let index' := k :: without k (index st) in
  {| entries := <[k := e]> (entries st);
     index := index';
     backing := <[INDEX_KEY := StoredIndex index']>
                  (<[entry_key k := StoredEntry rs now (now + ttl)]> (backing st)) |}.

(** Modelled from the spec: [put(key, results, ttl)] (section 4.3): create
    or overwrite the entry with [insertedAt = now], [expiresAt = now + ttl],
    mark the key most recently used, then evict down to the maximum. *)
Definition put (max : nat) (k : string) (rs : list SearchResult) (ttl now : Z)
    (st : store) : store :=
  evict_excess max (insert_entry k rs ttl now st).

(** Modelled from the spec: [clear()] (section 4.3): no entry, an empty
    index, and nothing of the store left in the backing. *)
Definition clear (st : store) : store :=
  {| entries := ∅;
     index := [];
     backing := foldr (fun k b => delete (entry_key k) b)
                      (delete INDEX_KEY (backing st)) (index st) |}.

Definition count (st : store) : nat := size (entries st).

Inductive op :=
| Get (k : string) (now : Z)
| Put (k : string) (rs : list SearchResult) (ttl now : Z)
| Clear.

Definition apply (max : nat) (o : op) (st : store) : store :=
  match o with
  | Get k now => snd (get k now st)
  | Put k rs ttl now => put max k rs ttl now st
  | Clear => clear st
  end.


(** The index lists every resident key exactly once. *)
Definition consistent (st : store) : Prop :=
  NoDup (index st) ∧ ∀ k, k ∈ index st ↔ is_Some (entries st !! k).







End CacheStore.

(** ** Transport and the search orchestrator *)

Module Orchestrator.
Import Parser CacheStore.

(** Modelled from the spec: the error taxonomy of section 7. *)
Inductive error_kind :=
| InvalidArgument
| Network
| RelayRejected
| MalformedBody.

(** Modelled from the spec: the library's [TransportError] (section 4.1): a
    kind and the relay's status code when there is one. *)
Record TransportError := {
  transport_kind : error_kind;
  relay_status : option Z;
}.

(** Modelled from the spec: what comes back from the relay for one request
    (sections 4.1 and 6): nothing at all, or a status and a body that does
    or does not parse as JSON. *)
Inductive relay_reply :=
| Unreachable
| Reply (status : Z) (body : option RendererNode).

(** The relay as seen from the library: the answer to each query sent. *)
Definition relay := SearchQuery → relay_reply.

(** Modelled from the spec: [fetch(query)] of the transport (section 4.1):
    a network failure, a non-2xx relay response and an unparseable body are
    the three transport errors. *)
Definition fetch (r : relay) (query : SearchQuery) : RendererNode + TransportError :=
  match r query with
  | Unreachable => inr {| transport_kind := Network; relay_status := None |}
  | Reply status body =>
      if (200 <=? status) && (status <? 300) then
        match body with
        | Some raw => inl raw
        | None => inr {| transport_kind := MalformedBody; relay_status := Some status |}
        end
      else inr {| transport_kind := RelayRejected; relay_status := Some status |}
  end.

(** Modelled from the spec: the [limit] option as a caller may pass it
    (section 4.4): an integer, or anything else (a fraction, [NaN], a value
    that is no number). *)
Inductive limit_option :=
| LimitInteger (n : Z)
| LimitOther.

(** Modelled from the spec: the configuration the orchestrator reads
    (sections 4.3 and 4.4): whether caching is on, the time to live, the
    maximum entry count, and the cache key, a function of
    [(text, type, limit)] only. *)
Record Config := {
  useCache : bool;
  cacheMaxAge : Z;
  maxEntries : nat;
  cache_key : SearchQuery → string;
}.

(** Modelled from the spec: the validation of section 4.4: [text] is
    non-empty and [limit] is a positive integer. *)
Definition validate (text : string) (ty : query_type) (limit : limit_option)
  : option SearchQuery :=
  match limit with
  | LimitInteger n =>
      if non_empty text && (0 <? n)
      then Some {| text := text; type := ty; limit := Z.to_nat n |}
      else None
  | LimitOther => None
  end.

(** What a call of [search] touches, in order. *)
Inductive event :=
| CacheRead (k : string)
| CacheWrite (k : string)
| RelayCall (query : SearchQuery).

Record search_run := {
  outcome : list SearchResult + error_kind;
  final : store;
  trace : list event;
}.

(** Modelled from the spec: [search(text, options)] (section 4.4):
    validate; with caching on, look the key up and return a hit at once; on
    a miss call the transport, parse, write the results to the cache when
    caching is on, and return them; a transport failure writes nothing. *)
Definition search (cfg : Config) (r : relay) (now : Z)
    (text : string) (ty : query_type) (limit : limit_option) (st : store)
  : search_run :=
  match validate text ty limit with
  | None => {| outcome := inr InvalidArgument; final := st; trace := [] |}
  | Some query =>
      let k := cache_key cfg query in
      let '(hit, st1, seen) :=
        if useCache cfg
        then let '(e, st') := get k now st in (e, st', [CacheRead k])
        else (None, st, []) in
      match hit with
      | Some e => {| outcome := inl (results e); final := st1; trace := seen |}
      | None =>
          match fetch r query with
          | inr err =>
              {| outcome := inr (transport_kind err); final := st1;
                 trace := seen ++ [RelayCall query] |}
          | inl raw =>
              let rs := parse raw query in
              if useCache cfg
              then {| outcome := inl rs;
                      final := put (maxEntries cfg) k rs (cacheMaxAge cfg) now st1;
                      trace := seen ++ [RelayCall query; CacheWrite k] |}
              else {| outcome := inl rs; final := st1;
                      trace := seen ++ [RelayCall query] |}
          end
      end
  end.


Definition type_name (ty : query_type) : string :=
  match ty with
  | TypeVideo => "video"
  | TypeChannel => "channel"
  | TypePlaylist => "playlist"
  | TypeAll => "all"
  end.

(** One exact string composition of the three parts of a query. *)
Definition compose_key (query : SearchQuery) : string :=
  type_name (type query) +:+ ":" +:+ pretty (limit query) +:+ ":" +:+ text query.




(** [limit] is a positive integer. *)
Definition positive_integer (limit : limit_option) : Prop :=
  ∃ n, limit = LimitInteger n ∧ 0 < n.

End Orchestrator.

(** ** Sample requests and networks for the concrete runs *)

Module Samples.
Import Js Relay.

Definition SEARCH_ENDPOINT : string :=
  "https://www.youtube.com/youtubei/v1/search".

(** [POST <target>] with the given body chunks. *)
Definition post (target : string) (chunks : list (list byte)) : IncomingMessage :=
  {| method := "POST"; url := target; chunks := chunks |}.

(** The bytes of [{}]. *)
Definition EMPTY_OBJECT : list byte := [Byte.x7b; Byte.x7d].

(** An upstream that answers every request with 200 and the given chunks. *)
Definition answering (chunks : list (list byte)) : network :=
  fun _ => UpResponse 200 [] chunks.

(** An upstream that cannot be reached. *)
Definition refusing : network := fun _ => UpError "connect ECONNREFUSED".

End Samples.

(** ** A sample upstream response and client configuration *)

Module LibrarySamples.
Import Parser CacheStore Orchestrator.

Definition leaf (i t l : option string) : RawLeaf :=
  {| raw_id := i; raw_title := t; raw_link := l; raw_thumbnail := None;
     raw_author := None; raw_subscriberCount := None; raw_videoCount := None |}.

Definition VIDEO_ABC : RawLeaf :=
  leaf (Some "abc123") (Some "Test Video") (Some "https://platform/watch?v=abc123").

(** The same video once more, as a sibling shelf repeats it. *)
Definition VIDEO_ABC_REPEATED : RawLeaf :=
  leaf (Some "abc123") (Some "Test Video (shelf)") (Some "https://platform/watch?v=abc123").

Definition VIDEO_XYZ : RawLeaf :=
  leaf (Some "xyz789") (Some "Other Video") (Some "https://platform/watch?v=xyz789").

Definition VIDEO_WITHOUT_ID : RawLeaf :=
  leaf None (Some "Untitled") (Some "https://platform/watch").

Definition CHANNEL : RawLeaf :=
  leaf (Some "UC42") (Some "A Channel") (Some "https://platform/channel/UC42").

Definition RESPONSE : RendererNode :=
  ContainerNode
    [LeafNode Video VIDEO_ABC;
     UnknownNode;
     ContainerNode
       [LeafNode Video VIDEO_ABC_REPEATED;
        LeafNode Channel CHANNEL;
        LeafNode Video VIDEO_WITHOUT_ID;
        LeafNode Video VIDEO_XYZ]].

(** A relay that answers every query the same way. *)
Definition always (reply : relay_reply) : relay := fun _ => reply.

Definition CONFIG : Config :=
  {| useCache := true; cacheMaxAge := 3600000; maxEntries := 2;
     cache_key := compose_key |}.

(** A store holding the one key [k], expiring at time 1000. *)
Definition ONE_ENTRY : store := put 2 "k" [] 1000 0 empty_store.




End LibrarySamples.

(** ** The shape of what the relay sends *)

Module RelayShapes.
Import Text Js Relay.

(** The request [fetchUrl] builds for a target that parsed as [parsedUrl]. *)
Definition upstream_request_of (target : string) (parsedUrl : URLRecord)
    (body : text) : upstream_request :=
  {| up_module := if startsWith target "https" then ModHttps else ModHttp;
     up_options :=
       {| opt_hostname := hostname parsedUrl;
          opt_port :=
            if negb (String.eqb (port parsedUrl) "")
            then PortString (port parsedUrl)
            else if String.eqb (protocol parsedUrl) "https:"
                 then PortNumber 443 else PortNumber 80;
          opt_path := url_pathname parsedUrl +:+ search parsedUrl;
          opt_method := "POST";
          opt_headers :=
            [("Content-Type", "application/json"); ("User-Agent", USER_AGENT)];
          opt_content_length :=
            match body with [] => None | _ :: _ => Some (byteLength body) end |};
     up_written := match body with [] => [] | _ :: _ => utf8_encode body end |}.

(** The headers of a preflight response: the three set with [setHeader]. *)
Definition CORS_HEADERS : gmap string string :=
  <["access-control-allow-headers" := "Content-Type"]>
    (<["access-control-allow-methods" := "GET, POST, OPTIONS"]>
       (<["access-control-allow-origin" := "*"]> ∅)).

(** The headers of every other response. *)
Definition JSON_CORS_HEADERS : gmap string string :=
  <["content-type" := "application/json"]> CORS_HEADERS.

End RelayShapes.

(** ** A platform that folds case

    [new URL] lower-cases the scheme and the host of what it parses.  This
    variant of the reference platform does so before parsing. *)

Module NodeFolding.
Import Js Node.

(** Lower-cases [s] up to the end of its authority: the first [/], [?] or
    [#] after the two slashes that follow the scheme. *)
Fixpoint fold_origin (slashes : nat) (s : string) : string :=
  match s with
  | EmptyString => EmptyString
  | String c s' =>
      if (2 <=? slashes)%nat
         && (Ascii.eqb c "/" || Ascii.eqb c "?" || Ascii.eqb c "#")
      then s
      else String (lower_ascii c)
             (fold_origin (if Ascii.eqb c "/" then S slashes else slashes) s')
  end.

Definition folding : Platform := {|
  URL_new := fun s => new_URL (fold_origin 0 s);
  url_parse := parse_target;
  decodeURIComponent := decode_strict;
  decodeURIComponent_empty := eq_refl;
|}.

End NodeFolding.

(** ** The localStorage stand-in of the integration tests

    [integration.test.js] and [integration-with-proxy.test.js] install the
    same object as [global.localStorage]: a closure over [let store = {}].
    [store] is an ordinary object, so a read falls through to
    [Object.prototype] for a key it does not own, and an assignment to
    [__proto__] with a string is ignored. *)

Module LocalStorageMock.

(** What [getItem] can return: [null], a stored string, or whatever
    [Object.prototype] holds under the key. *)
Inductive item :=
| Null
| Stored (s : string)
| Inherited.

(** The property names of [Object.prototype]. *)
Definition OBJECT_PROTOTYPE_KEYS : list string :=
  ["constructor"; "__defineGetter__"; "__defineSetter__"; "hasOwnProperty";
   "__lookupGetter__"; "__lookupSetter__"; "isPrototypeOf";
   "propertyIsEnumerable"; "toString"; "valueOf"; "__proto__";
   "toLocaleString"].

(** [getItem: (key) => store[key] ?? null] *)
Definition getItem (key : string) (store : gmap string string) : item :=
  match store !! key with
  | Some v => Stored v
  | None => if bool_decide (key ∈ OBJECT_PROTOTYPE_KEYS) then Inherited else Null
  end.

(** [setItem: (key, value) => { store[key] = String(value); }] *)
Definition setItem (key : string) (value : Js.value) (store : gmap string string)
  : gmap string string :=
  if String.eqb key "__proto__" then store
  else <[key := Js.to_string value]> store.

(** [removeItem: (key) => { delete store[key]; }] *)
Definition removeItem (key : string) (store : gmap string string)
  : gmap string string :=
  delete key store.

(** [clear: () => { store = {}; }] *)
Definition clear (store : gmap string string) : gmap string string := ∅.

End LocalStorageMock.

(** * Facts *)

(** ** Text: decoding what was encoded *)

Module TextFacts.
Import Text.

Lemma byte_val_of (z : Z) : 0 <= z < 256 -> byte_val (byte_of z) = z.
Proof.
  intros Hz. unfold byte_val, byte_of.
  destruct (Byte.of_N (Z.to_N z)) as [b|] eqn:E.
  - apply Byte.to_of_N in E. rewrite E. lia.
  - apply Byte.of_N_None_iff in E. lia.
Qed.

Ltac bool_cases :=
  repeat match goal with
  | |- context [?a <=? ?b] => destruct (Z.leb_spec a b); try lia
  | |- context [?a <? ?b] => destruct (Z.ltb_spec a b); try lia
  | |- context [?a =? ?b] => destruct (Z.eqb_spec a b); try lia
  end.

Lemma decode_from_cons st b bs :
  decode_from st (b :: bs) =
  (step st (byte_val b)).2 ++ decode_from (step st (byte_val b)).1 bs.
Proof. cbn [decode_from]. destruct (step st (byte_val b)); reflexivity. Qed.

Lemma lead_ascii b : 0 <= b < 0x80 -> lead b = (d0, [b]).
Proof. intros. unfold lead. bool_cases. reflexivity. Qed.

Lemma lead_two b :
  0xC2 <= b <= 0xDF -> lead b = (DState 1 (b - 0xC0) 0x80 0xBF, []).
Proof. intros. unfold lead. bool_cases. reflexivity. Qed.

Lemma lead_three b :
  0xE0 <= b <= 0xEF ->
  lead b = (DState 2 (b - 0xE0) (if b =? 0xE0 then 0xA0 else 0x80)
                     (if b =? 0xED then 0x9F else 0xBF), []).
Proof.
  intros. unfold lead.
  destruct (Z.leb_spec b 0x7F); [lia|].
  destruct (Z.leb_spec 0xC2 b); [|lia].
  destruct (Z.leb_spec b 0xDF); [lia|].
  destruct (Z.leb_spec 0xE0 b); [|lia].
  destruct (Z.leb_spec b 0xEF); [|lia]. reflexivity.
Qed.

Lemma lead_four b :
  0xF0 <= b <= 0xF4 ->
  lead b = (DState 3 (b - 0xF0) (if b =? 0xF0 then 0x90 else 0x80)
                     (if b =? 0xF4 then 0x8F else 0xBF), []).
Proof.
  intros. unfold lead.
  destruct (Z.leb_spec b 0x7F); [lia|].
  destruct (Z.leb_spec 0xC2 b); [|lia].
  destruct (Z.leb_spec b 0xDF); [lia|].
  destruct (Z.leb_spec 0xE0 b); [|lia].
  destruct (Z.leb_spec b 0xEF); [lia|].
  destruct (Z.leb_spec 0xF0 b); [|lia].
  destruct (Z.leb_spec b 0xF4); [|lia]. reflexivity.
Qed.

Lemma step_start a l h b : step (DState 0 a l h) b = lead b.
Proof. reflexivity. Qed.

Lemma step_last a l h b :
  l <= b <= h -> step (DState 1 a l h) b = (d0, [a * 64 + (b - 0x80)]).
Proof.
  intros. unfold step. cbn [need lo hi acc].
  destruct (Z.leb_spec l b); [|lia]. destruct (Z.leb_spec b h); [|lia]. reflexivity.
Qed.

Lemma step_more n a l h b :
  l <= b <= h ->
  step (DState (S (S n)) a l h) b = (DState (S n) (a * 64 + (b - 0x80)) 0x80 0xBF, []).
Proof.
  intros. unfold step. cbn [need lo hi acc].
  destruct (Z.leb_spec l b); [|lia]. destruct (Z.leb_spec b h); [|lia]. reflexivity.
Qed.

(** The decoder reads the encoding of one scalar value back as that value
    and is ready for the next character. *)
Lemma decode_encode_cp (c : Z) (rest : list byte) :
  scalar c -> decode_from d0 (encode_cp c ++ rest) = c :: decode_from d0 rest.
Proof.
  intros Hc. unfold scalar in Hc. unfold encode_cp.
  pose proof (Z.div_mod c 64 ltac:(lia)) as D1.
  pose proof (Z.mod_pos_bound c 64 ltac:(lia)) as M1.
  pose proof (Z.div_mod (c / 64) 64 ltac:(lia)) as D2.
  pose proof (Z.mod_pos_bound (c / 64) 64 ltac:(lia)) as M2.
  pose proof (Z.div_mod (c / 64 / 64) 64 ltac:(lia)) as D3.
  pose proof (Z.mod_pos_bound (c / 64 / 64) 64 ltac:(lia)) as M3.
  assert (c / 4096 = c / 64 / 64) as E2 by (rewrite Z.div_div by lia; reflexivity).
  assert (c / 262144 = c / 64 / 64 / 64) as E3 by (rewrite !Z.div_div by lia; reflexivity).
  rewrite E2, E3.
  set (q1 := c / 64) in *. set (r1 := c mod 64) in *.
  set (q2 := q1 / 64) in *. set (r2 := q1 mod 64) in *.
  set (q3 := q2 / 64) in *. set (r3 := q2 mod 64) in *.
  destruct (Z.ltb_spec c 0x80).
  { cbn [app]. rewrite decode_from_cons, byte_val_of by lia.
    unfold d0 at 1 2. rewrite step_start, lead_ascii by lia. reflexivity. }
  destruct (Z.ltb_spec c 0x800).
  { cbn [app]. rewrite decode_from_cons, byte_val_of by lia.
    unfold d0 at 1 2. rewrite step_start, lead_two by lia. cbn [fst snd app].
    rewrite decode_from_cons, byte_val_of by lia.
    rewrite step_last by lia. cbn [fst snd app]. f_equal. lia. }
  destruct (Z.ltb_spec c 0x10000).
  { destruct (Z.leb_spec 0xD800 c); [destruct (Z.ltb_spec c 0xE000); [lia|]|]; cbn [andb app].
    all: rewrite decode_from_cons, byte_val_of by lia.
    all: unfold d0 at 1 2; rewrite step_start, lead_three by lia; cbn [fst snd app].
    all: rewrite decode_from_cons, byte_val_of by lia.
    all: rewrite step_more by (bool_cases; lia); cbn [fst snd app].
    all: rewrite decode_from_cons, byte_val_of by lia.
    all: rewrite step_last by lia; cbn [fst snd app]; f_equal; lia. }
  cbn [app]. rewrite decode_from_cons, byte_val_of by lia.
  unfold d0 at 1 2. rewrite step_start, lead_four by lia. cbn [fst snd app].
  rewrite decode_from_cons, byte_val_of by lia.
  rewrite step_more by (bool_cases; lia). cbn [fst snd app].
  rewrite decode_from_cons, byte_val_of by lia.
  rewrite step_more by lia. cbn [fst snd app].
  rewrite decode_from_cons, byte_val_of by lia.
  rewrite step_last by lia. cbn [fst snd app]. f_equal. lia.
Qed.

Lemma decode_encode (t : text) : Forall scalar t -> utf8_decode (utf8_encode t) = t.
Proof.
  unfold utf8_decode, utf8_encode.
  induction 1 as [|c t Hc _ IH]; [reflexivity|].
  cbn [flat_map]. rewrite decode_encode_cp by assumption. f_equal. exact IH.
Qed.

Lemma utf8_encode_app (t1 t2 : text) :
  utf8_encode (t1 ++ t2) = utf8_encode t1 ++ utf8_encode t2.
Proof. unfold utf8_encode. apply flat_map_app. Qed.

Lemma accumulate_from (chunks : list (list byte)) (start : text) :
  fold_left (fun acc chunk => acc ++ utf8_decode chunk) chunks start =
  start ++ accumulate chunks.
Proof.
  unfold accumulate. revert start.
  induction chunks as [|c cs IH]; intros start; cbn [fold_left].
  - by rewrite app_nil_r.
  - rewrite IH, (IH ([] ++ _)). cbn [app]. by rewrite <- app_assoc.
Qed.

Lemma accumulate_cons c cs : accumulate (c :: cs) = utf8_decode c ++ accumulate cs.
Proof. unfold accumulate at 1. cbn [fold_left]. apply accumulate_from. Qed.

(** Chunks that are well formed one by one come out of the
    decode-concatenate-encode path as they went in. *)
Lemma recode_well_formed (chunks : list (list byte)) :
  Forall well_formed chunks -> utf8_encode (accumulate chunks) = concat chunks.
Proof.
  induction 1 as [|c cs (t & Ht & ->) _ IH]; [reflexivity|].
  rewrite accumulate_cons, utf8_encode_app, decode_encode, IH by assumption.
  reflexivity.
Qed.

Lemma written_well_formed (chunks : list (list byte)) :
  Forall well_formed chunks ->
  match accumulate chunks with
  | [] => []
  | _ :: _ => utf8_encode (accumulate chunks)
  end = concat chunks.
Proof.
  intros Hwf. rewrite <- (recode_well_formed chunks Hwf).
  destruct (accumulate chunks); reflexivity.
Qed.

Lemma ascii_well_formed (bs : list byte) :
  Forall (fun b => byte_val b < 0x80) bs -> well_formed bs.
Proof.
  intros Hbs. exists (byte_val <$> bs). split.
  - apply Forall_fmap. eapply Forall_impl; [exact Hbs|].
    intros b Hb. cbn. pose proof (Byte.to_N_bounded b). unfold scalar, byte_val in *. lia.
  - induction Hbs as [|b bs Hb _ IH]; [reflexivity|].
    cbn [fmap list_fmap]. unfold utf8_encode in *. cbn [flat_map].
    rewrite <- IH. unfold encode_cp.
    destruct (Z.ltb_spec (byte_val b) 0x80); [|lia]. cbn [app]. f_equal.
    unfold byte_of, byte_val. rewrite N2Z.id, Byte.of_to_N. reflexivity.
Qed.

End TextFacts.

(** ** The relay *)

Module RelayFacts.
Import Text Js Relay TextFacts.

Lemma append_cons (c : ascii) (a b : string) :
  String c a +:+ b = String c (a +:+ b).
Proof. reflexivity. Qed.

Lemma prefix_spec (p s : string) :
  String.prefix p s = true ↔ ∃ suf, s = p +:+ suf.
Proof.
  revert s. induction p as [|c p IH]; intros s.
  - split; [intros _; by exists s|]. intros _. by destruct s.
  - destruct s as [|d s]; cbn [String.prefix].
    + split; [done|intros [suf [=]]].
    + destruct (ascii_dec c d) as [->|Hne].
      * rewrite IH. split; intros [suf Hs]; exists suf;
          rewrite append_cons in *; congruence.
      * split; [done|intros [suf Hs]]. rewrite append_cons in Hs. congruence.
Qed.

Lemma includes_contains (s sub : string) :
  includes s sub = true ↔ contains s sub.
Proof.
  unfold contains. induction s as [|c s IH]; cbn [includes].
  - rewrite orb_false_r, prefix_spec. split.
    + intros [suf ->]. by exists "", suf.
    + intros (pre & suf & Hs). destruct pre; [by exists suf|].
      rewrite append_cons in Hs. discriminate.
  - rewrite orb_true_iff, prefix_spec, IH. split.
    + intros [[suf ->]|(pre & suf & ->)]; [by exists "", suf|by exists (String c pre), suf].
    + intros (pre & suf & Hs). destruct pre as [|d pre].
      * left. by exists suf.
      * right. rewrite append_cons in Hs. injection Hs as _ ->. by exists pre, suf.
Qed.

Lemma matched_eqb (p : string) :
  matched (Some p) ↔
  String.eqb p "/proxy" || String.eqb p "/proxy/" || String.eqb p "" = true.
Proof.
  unfold matched. rewrite !orb_true_iff, !String.eqb_eq.
  split; [intros [[= ->]|[[= ->]|[= ->]]]|intros [[->| ->]| ->]]; auto.
Qed.

(** On the three matched paths the path itself contributes no target. *)
Lemma path_target_empty (p : string) :
  matched (Some p) →
  to_string (or_else (index (split p "/proxy/") 1) (JString "")) = "".
Proof. intros [[= ->]|[[= ->]|[= ->]]]; reflexivity. Qed.

Lemma truthy_string (s : string) : truthy (JString s) = true ↔ s ≠ "".
Proof.
  cbn [truthy]. rewrite negb_true_iff. split.
  - intros Hs ->. discriminate.
  - intros Hs. by apply String.eqb_neq.
Qed.

Section listener.
Context `{Platform}.
Variables (net : network) (req : IncomingMessage).
Hypothesis not_preflight : method req ≠ "OPTIONS".

Lemma server_not_found :
  ¬ matched (pathname (url_parse (url req))) →
  server net req = Responded (error_reply 404 "Not found") [].
Proof.
  intros Hp. unfold server.
  apply String.eqb_neq in not_preflight as ->.
  destruct (pathname (url_parse (url req))) as [p|]; [|reflexivity].
  rewrite matched_eqb in Hp. apply not_true_is_false in Hp as ->. reflexivity.
Qed.

Hypothesis on_proxy : matched (pathname (url_parse (url req))).

(** On the proxy endpoint the listener is the three-way decision on
    [query.url] alone. *)
Lemma server_proxy :
  server net req =
  let targetUrl := query_url (url_parse (url req)) in
  if negb (truthy targetUrl) then
    Responded (error_reply 400 "Missing url parameter") []
  else if negb (isAllowedUrl targetUrl) then
    Responded (error_reply 403 "URL not allowed") []
  else
    match fetchUrl net targetUrl (accumulate (chunks req)) with
    | None => Uncaught
    | Some (up, CbError message) => Responded (error_reply 500 message) [up]
    | Some (up, CbResponse statusCode _ data) =>
        Responded
          (finish (Raw (utf8_encode data))
             (writeHead statusCode
                [("Content-Type", "application/json");
                 ("Access-Control-Allow-Origin", "*")] cors_response)) [up]
    end.
Proof.
  unfold server.
  apply String.eqb_neq in not_preflight as ->.
  destruct (pathname (url_parse (url req))) as [p|] eqn:Ep;
    [|by destruct on_proxy as [|[|]]].
  pose proof on_proxy as Hm. rewrite matched_eqb in Hm. rewrite Hm.
  rewrite (path_target_empty p on_proxy), decodeURIComponent_empty.
  cbv zeta.
  destruct (truthy (query_url (url_parse (url req)))) eqn:Et.
  - cbv beta iota. rewrite Et. reflexivity.
  - reflexivity.
Qed.
End listener.

Lemma isAllowedUrl_spec `{Platform} (v : value) :
  isAllowedUrl v = true ↔
  ∃ u host, URL_new (to_string v) = Some u ∧ host ∈ ALLOWED_HOSTS
            ∧ contains (hostname u) host.
Proof.
  unfold isAllowedUrl. destruct (URL_new (to_string v)) as [u|].
  - rewrite existsb_exists. split.
    + intros (host & Hin & Hc). exists u, host.
      by rewrite <- includes_contains, list_elem_of_In.
    + intros (u' & host & [= <-] & Hin & Hc). exists host.
      by rewrite includes_contains, <- list_elem_of_In.
  - split; [done|]. by intros (u & host & [=] & _).
Qed.

(** C10: every OPTIONS request, whatever its path and query, is answered
    200 with an empty body, and no upstream request is made. *)
Theorem preflight_answered `{Platform} (net : network) (u : string)
    (cs : list (list byte)) :
  server net {| method := "OPTIONS"; url := u; chunks := cs |} =
  Responded (finish NoBody (writeHead 200 [] cors_response)) []
  ∧ status (finish NoBody (writeHead 200 [] cors_response)) = 200
  ∧ body (finish NoBody (writeHead 200 [] cors_response)) = NoBody.
Proof. repeat split. Qed.

(** C8: every response the listener sends carries
    [Access-Control-Allow-Origin: *]. *)
Theorem cors_origin_on_every_response `{Platform} (net : network)
    (req : IncomingMessage) (r : response) :
  response_of (server net req) = Some r → headers r !! ACAO = Some "*".
Proof.
  unfold server.
  destruct (String.eqb (method req) "OPTIONS"); [intros [= <-]; reflexivity|].
  destruct (pathname (url_parse (url req))) as [p|]; [|intros [= <-]; reflexivity].
  destruct (_ || _); [|intros [= <-]; reflexivity].
  destruct (if truthy _ then _ else _) as [t|]; [|discriminate].
  destruct (negb (truthy t)); [intros [= <-]; reflexivity|].
  destruct (negb (isAllowedUrl t)); [intros [= <-]; reflexivity|].
  destruct (fetchUrl _ _ _) as [[up [msg|code hs data]]|]; [| |discriminate].
  all: intros [= <-]; reflexivity.
Qed.

Lemma no_upstream_off_proxy `{Platform} (net : network) (req : IncomingMessage) :
  ¬ matched (pathname (url_parse (url req))) →
  upstream_requests (server net req) = [].
Proof.
  intros Hp. destruct (decide (method req = "OPTIONS")) as [Ho|Ho].
  - unfold server. apply String.eqb_eq in Ho as ->. reflexivity.
  - by rewrite server_not_found.
Qed.

Lemma upstream_needs_allowed_string `{Platform} (net : network) (req : IncomingMessage) :
  upstream_requests (server net req) ≠ [] →
  method req ≠ "OPTIONS"
  ∧ matched (pathname (url_parse (url req)))
  ∧ ∃ target, query_url (url_parse (url req)) = JString target ∧ target ≠ ""
              ∧ isAllowedUrl (JString target) = true.
Proof.
  intros Hup.
  assert (method req ≠ "OPTIONS") as Ho.
  { intros Ho. apply Hup. unfold server. apply String.eqb_eq in Ho as ->. reflexivity. }
  assert (matched (pathname (url_parse (url req)))) as Hm.
  { destruct (decide (matched (pathname (url_parse (url req))))) as [|Hn]; [done|].
    by apply (no_upstream_off_proxy net) in Hn. }
  split; [done|split; [done|]].
  rewrite (server_proxy net req Ho Hm) in Hup. cbv zeta in Hup.
  destruct (truthy _) eqn:Et; [|done]. cbn [negb] in Hup.
  destruct (isAllowedUrl _) eqn:Ea; [|done]. cbn [negb] in Hup.
  destruct (query_url (url_parse (url req))) as [|target|vs]; [done| |done].
  exists target. by rewrite <- truthy_string.
Qed.

(** C9: the proxy branch is taken on the paths [/proxy], [/proxy/] and the
    empty path only.  Any other path, one that embeds the target
    included, is answered 404 and never forwarded; on the three paths the
    target is [query.url] and nothing else: without it the answer is 400,
    and whatever is forwarded was named by it. *)
Theorem proxy_path_routing `{Platform} (net : network) (req : IncomingMessage) :
  let parsed := url_parse (url req) in
  (method req ≠ "OPTIONS" → ¬ matched (pathname parsed) →
     server net req = Responded (error_reply 404 "Not found") [])
  ∧ (¬ matched (pathname parsed) → upstream_requests (server net req) = [])
  ∧ (method req ≠ "OPTIONS" → matched (pathname parsed) →
     truthy (query_url parsed) = false →
     server net req = Responded (error_reply 400 "Missing url parameter") [])
  ∧ (upstream_requests (server net req) ≠ [] →
     matched (pathname parsed)
     ∧ ∃ target, query_url parsed = JString target ∧ target ≠ ""
                 ∧ isAllowedUrl (JString target) = true).
Proof.
  cbv zeta. split; [|split; [|split]].
  - apply server_not_found.
  - apply no_upstream_off_proxy.
  - intros Ho Hm Ht. rewrite (server_proxy net req Ho Hm). cbv zeta. by rewrite Ht.
  - intros Hup. by apply upstream_needs_allowed_string in Hup as (_ & Hm & Ht).
Qed.

(** The path format of the deployment guide, on the reference platform:
    not found, nothing forwarded. *)
Example path_format_not_found (net : network) :
  server (H := Node.reference) net
    {| method := "POST";
       url := "/proxy/https://youtubei.googleapis.com/youtube/v2/search";
       chunks := [] |}
  = Responded (error_reply 404 "Not found") [].
Proof. reflexivity. Qed.

End RelayFacts.

(** ** Concrete runs of the relay *)

Module RelayRuns.
Import Text Js Relay TextFacts RelayFacts Samples.

(** C1: the allow check fails the claim at a host that is no YouTube host
    at all: [youtube.com.evil.example] has an allow-listed name inside its
    own, passes [isAllowedUrl] and is forwarded, where the claim and the
    guide have it answered 403. *)
Lemma lookalike_is_forwarded :
  ∃ r up,
    server (H := Node.reference) (answering [EMPTY_OBJECT])
      (post "/proxy?url=https://youtube.com.evil.example/youtubei/v1/search" [])
    = Responded r [up]
    ∧ status r = 200
    ∧ opt_hostname (up_options up) = "youtube.com.evil.example".
Proof. do 2 eexists. split; [reflexivity|]. split; reflexivity. Qed.

(** C2: an upstream body that is valid UTF-8 does not come back byte for
    byte when a chunk boundary falls inside a character: the two bytes of
    U+00E9 arrive apart, each is decoded on its own, and they leave as two
    replacement characters. *)
Lemma split_character_is_garbled :
  ∃ r up,
    server (H := Node.reference) (answering [[Byte.xc3]; [Byte.xa9]])
      (post "/proxy?url=https://www.youtube.com/youtubei/v1/search" [])
    = Responded r [up]
    ∧ body r = Raw [Byte.xef; Byte.xbf; Byte.xbd; Byte.xef; Byte.xbf; Byte.xbd]
    ∧ utf8_decode [Byte.xc3; Byte.xa9] = [0xE9].
Proof. do 2 eexists. split; [reflexivity|]. split; reflexivity. Qed.

(** The header on a 404. *)
Lemma cors_origin_witness :
  headers (error_reply 404 "Not found") !! ACAO = Some "*".
Proof.
  apply (cors_origin_on_every_response (H := Node.reference) refusing
           (post "/search" [])).
  reflexivity.
Defined.
End RelayRuns.

(** ** The result parser *)

Module ParserFacts.
Import Parser.

(** Induction over a renderer tree, the children of a container included. *)
Lemma RendererNode_tree_ind (P : RendererNode → Prop) :
  (∀ children, Forall P children → P (ContainerNode children)) →
  (∀ v leaf, P (LeafNode v leaf)) →
  P UnknownNode →
  ∀ node, P node.
Proof.
  intros Hcontainer Hleaf Hunknown. fix IH 1.
  intros [children|v leaf|]; [|apply Hleaf|apply Hunknown].
  apply Hcontainer. induction children as [|c cs IHcs]; constructor; auto.
Qed.




Lemma walk_kind (ty : query_type) (node : RendererNode) :
  Forall (fun r => matches ty (kind r) = true) (walk ty node).
Proof.
  induction node as [children IH|v leaf|] using RendererNode_tree_ind; cbn [walk].
  - induction IH as [|c cs Hc _ IHcs]; cbn [flat_map]; [constructor|].
    by apply Forall_app.
  - destruct (matches ty v) eqn:Em; [|constructor].
    destruct (extract v leaf) as [r|] eqn:Er; [|constructor].
    apply Forall_singleton. unfold extract in Er.
    destruct (required (raw_id leaf)); [|done].
    destruct (required (raw_title leaf)); [|done].
    destruct (required (raw_link leaf)); [|done].
    cbn in Er. injection Er as <-. by destruct v.
  - constructor.
Qed.





(** Every id of the traversal survives deduplication. *)
Lemma dedup_from_covers (seen : gset string) (rs : list SearchResult) (r : SearchResult) :
  r ∈ rs → id r ∉ seen → id r ∈ id <$> dedup_from seen rs.
Proof.
  revert seen. induction rs as [|x rs IH]; intros seen; cbn [dedup_from].
  - by intros ?%elem_of_nil.
  - intros [->|Hr]%elem_of_cons Hfresh.
    + destruct (decide (id x ∈ seen)) as [|_]; [done|]. cbn. apply elem_of_cons. by left.
    + case_decide as Hx; [by apply IH|].
      cbn [fmap list_fmap]. apply elem_of_cons.
      destruct (decide (id r = id x)) as [|Hne]; [by left|right].
      apply IH; [done|]. by intros [?%elem_of_singleton|?]%elem_of_union.
Qed.





End ParserFacts.

(** ** The cache store *)

Module CacheFacts.
Import Parser CacheStore.

Lemma entry_key_not_index (k : string) : entry_key k ≠ INDEX_KEY.
Proof. unfold entry_key, NAMESPACE, INDEX_KEY. cbv [String.append]. discriminate. Qed.

Lemma entry_key_inj (k1 k2 : string) : entry_key k1 = entry_key k2 → k1 = k2.
Proof. unfold entry_key, NAMESPACE. cbv [String.append]. by intros [= ->]. Qed.

Lemma elem_of_without (k k' : string) (ks : list string) :
  k' ∈ without k ks ↔ k' ∈ ks ∧ k' ≠ k.
Proof. unfold without. rewrite list_elem_of_filter. tauto. Qed.



















Lemma entries_evict_subseteq (k : string) (st : store) :
  entries (evict k st) ⊆ entries st.
Proof. apply delete_subseteq. Qed.






Lemma count_evict_le (k : string) (st : store) :
  consistent st → (count (evict k st) ≤ count st)%nat.
Proof.
  intros Hc. unfold count. apply map_subseteq_size, entries_evict_subseteq.
Qed.






(** C6: a lookup at or after the expiry of the key's entry returns absent
    and evicts the entry: afterwards the key is in neither the index nor the
    entries, its value is gone from the backing, the persisted index is the
    new index, and a later lookup is absent as well. *)
Theorem expired_entry_is_evicted (k : string) (now : Z) (st : store) (e : CacheEntry) :
  entries st !! k = Some e →
  expiresAt e <= now →
  (get k now st).1 = None
  ∧ (k ∉ index (get k now st).2)
  ∧ entries (get k now st).2 !! k = None
  ∧ backing (get k now st).2 !! entry_key k = None
  ∧ backing (get k now st).2 !! INDEX_KEY = Some (StoredIndex (index (get k now st).2))
  ∧ ∀ later, (get k later (get k now st).2).1 = None.
Proof.
  intros Hk Hexp.
  assert (get k now st = (None, evict k st)) as ->.
  { unfold get. rewrite Hk. destruct (Z.leb_spec (expiresAt e) now); [done|lia]. }
  cbn [fst snd].
  assert (entries (evict k st) !! k = None) as Hgone by apply lookup_delete_eq.
  split; [done|]. split; [|split; [done|split; [|split]]].
  - cbn [evict index]. rewrite elem_of_without. by intros [_ []].
  - cbn [evict backing].
    rewrite lookup_insert_ne by (apply not_eq_sym, entry_key_not_index).
    apply lookup_delete_eq.
  - cbn [evict backing index]. apply lookup_insert_eq.
  - intros later. unfold get. by rewrite Hgone.
Qed.

End CacheFacts.

(** ** Recency: which entries a put evicts *)

Module RecencyFacts.
Import Parser CacheStore CacheFacts.












End RecencyFacts.

(** ** The orchestrator *)

Module OrchestratorFacts.
Import Parser CacheStore Orchestrator ParserFacts CacheFacts.







Lemma validate_Some (text : string) (ty : query_type) (limit : limit_option)
    (query : SearchQuery) :
  validate text ty limit = Some query ↔
  text ≠ "" ∧ ∃ n, limit = LimitInteger n ∧ 0 < n
                   ∧ query = {| Parser.text := text; type := ty; limit := Z.to_nat n |}.
Proof.
  unfold validate, non_empty. destruct limit as [n|].
  - destruct (String.eqb_spec text "") as [->|Ht]; cbn [negb andb].
    + split; [done|]. by intros [[] _].
    + destruct (Z.ltb_spec 0 n).
      * split; [intros [= <-]; eauto 10|].
        by intros (_ & n' & [= <-] & _ & ->).
      * split; [done|]. intros (_ & n' & [= <-] & Hn & _). lia.
  - split; [done|]. by intros (_ & n & [=] & _).
Qed.

Lemma validate_None (text : string) (ty : query_type) (limit : limit_option) :
  validate text ty limit = None ↔ text = "" ∨ ¬ positive_integer limit.
Proof.
  unfold positive_integer.
  destruct (validate text ty limit) as [query|] eqn:Ev.
  - apply validate_Some in Ev as (Ht & n & -> & Hn & _).
    split; [done|]. intros [?|Hl]; [done|]. destruct Hl. eauto.
  - split; [intros _|done].
    destruct (decide (text = "")) as [|Ht]; [by left|right].
    intros (n & -> & Hn).
    assert (validate text ty (LimitInteger n)
            = Some {| Parser.text := text; type := ty; limit := Z.to_nat n |}) as Hv.
    { apply validate_Some. eauto 10. }
    congruence.
Qed.



Section invariant.
Variable cfg : Config.
Hypothesis key_inj : Inj (=) (=) (cache_key cfg).




End invariant.



(** C5: with an empty text, or a limit that is not a positive integer,
    [search] fails with [InvalidArgument], leaves the store as it was and
    touches neither the cache nor the relay. *)
Theorem invalid_arguments_fail_first (cfg : Config) (r : relay) (now : Z)
    (text : string) (ty : query_type) (limit : limit_option) (st : store) :
  text = "" ∨ ¬ positive_integer limit →
  search cfg r now text ty limit st
  = {| outcome := inr InvalidArgument; final := st; trace := [] |}.
Proof.
  intros Hbad. apply (validate_None text ty limit) in Hbad.
  unfold search. by rewrite Hbad.
Qed.
End OrchestratorFacts.

(** ** Concrete runs of the library model *)

Module LibraryRuns.
Import Parser CacheStore Orchestrator LibrarySamples.
Import ParserFacts CacheFacts OrchestratorFacts.

(** The scenario of the specification: one video, an unknown renderer and
    a repeated shelf; the video comes out once, as first seen. *)
Example parse_sample :
  parse RESPONSE {| text := "test"; type := TypeVideo; limit := 5 |}
  = [ {| id := "abc123"; title := "Test Video";
         link := "https://platform/watch?v=abc123"; thumbnail := None;
         fields := VideoFields None |};
      {| id := "xyz789"; title := "Other Video";
         link := "https://platform/watch?v=xyz789"; thumbnail := None;
         fields := VideoFields None |} ].
Proof. reflexivity. Qed.

(** Cutting to the limit before deduplication would lose a result. *)
Example truncating_first_loses_results :
  length (parse RESPONSE {| text := "test"; type := TypeVideo; limit := 2 |}) = 2%nat
  ∧ length (parse_truncating_first RESPONSE
              {| text := "test"; type := TypeVideo; limit := 2 |}) = 1%nat.
Proof. split; reflexivity. Qed.



(** The scenario of the specification, a search for the empty text with
    limit 5, and two limits that are no positive integer. *)
Lemma invalid_arguments_fail_first_witness :
  search CONFIG (always (Reply 200 (Some RESPONSE))) 0 "" TypeVideo
    (LimitInteger 5) empty_store
  = {| outcome := inr InvalidArgument; final := empty_store; trace := [] |}
  ∧ search CONFIG (always (Reply 200 (Some RESPONSE))) 0 "test" TypeVideo
      (LimitInteger 0) empty_store
    = {| outcome := inr InvalidArgument; final := empty_store; trace := [] |}
  ∧ search CONFIG (always (Reply 200 (Some RESPONSE))) 0 "test" TypeVideo
      LimitOther empty_store
    = {| outcome := inr InvalidArgument; final := empty_store; trace := [] |}.
Proof.
  split; [|split]; apply invalid_arguments_fail_first.
  - by left.
  - right. intros (n & [= <-] & Hn). lia.
  - right. intros (n & [=] & _).
Defined.

(** A lookup at the very moment the entry expires. *)
Lemma expired_entry_is_evicted_witness :
  (get "k" 1000 ONE_ENTRY).1 = None
  ∧ ("k" ∉ index (get "k" 1000 ONE_ENTRY).2)
  ∧ entries (get "k" 1000 ONE_ENTRY).2 !! "k" = None
  ∧ backing (get "k" 1000 ONE_ENTRY).2 !! entry_key "k" = None
  ∧ backing (get "k" 1000 ONE_ENTRY).2 !! INDEX_KEY
    = Some (StoredIndex (index (get "k" 1000 ONE_ENTRY).2))
  ∧ ∀ later, (get "k" later (get "k" 1000 ONE_ENTRY).2).1 = None.
Proof.
  apply (expired_entry_is_evicted "k" 1000 ONE_ENTRY
           {| key := "k"; results := []; insertedAt := 0; expiresAt := 1000 |}).
  - reflexivity.
  - cbn. lia.
Defined.

End LibraryRuns.

(** ** More about the relay *)

Module RelayExtras.
Import Text Js Relay RelayShapes TextFacts RelayFacts Samples.

Lemma fetchUrl_request `{Platform} (net : network) (target : string) (body : text)
    (u : URLRecord) :
  URL_new target = Some u →
  fetchUrl net (JString target) body =
  Some (upstream_request_of target u body,
        match net (upstream_request_of target u body) with
        | UpError message => CbError message
        | UpResponse code hs cs => CbResponse code hs (accumulate cs)
        end).
Proof.
  intros Hu. unfold fetchUrl. rewrite Hu. cbv zeta.
  fold (upstream_request_of target u body).
  destruct (net _); reflexivity.
Qed.

(** What the listener does once a string target has passed the check. *)
Lemma server_forwarding `{Platform} (net : network) (req : IncomingMessage)
    (target : string) (u : URLRecord) :
  method req ≠ "OPTIONS" →
  matched (pathname (url_parse (url req))) →
  query_url (url_parse (url req)) = JString target →
  target ≠ "" →
  URL_new target = Some u →
  isAllowedUrl (JString target) = true →
  server net req =
  let up := upstream_request_of target u (accumulate (chunks req)) in
  match net up with
  | UpError message => Responded (error_reply 500 message) [up]
  | UpResponse code _ cs =>
      Responded
        (finish (Raw (utf8_encode (accumulate cs)))
           (writeHead code
              [("Content-Type", "application/json");
               ("Access-Control-Allow-Origin", "*")] cors_response)) [up]
  end.
Proof.
  intros Ho Hm Hq Ht Hu Ha.
  rewrite (server_proxy net req Ho Hm). cbv zeta. rewrite Hq.
  apply truthy_string in Ht. rewrite Ht, Ha. cbn [negb].
  rewrite (fetchUrl_request net target _ u Hu).
  destruct (net _); reflexivity.
Qed.

(** Every upstream request comes from a string target that parsed and
    passed the check, and it is the only one made. *)
Lemma upstream_request_made `{Platform} (net : network) (req : IncomingMessage)
    (up : upstream_request) :
  up ∈ upstream_requests (server net req) →
  method req ≠ "OPTIONS"
  ∧ matched (pathname (url_parse (url req)))
  ∧ ∃ target u,
      query_url (url_parse (url req)) = JString target
      ∧ target ≠ ""
      ∧ URL_new target = Some u
      ∧ isAllowedUrl (JString target) = true
      ∧ up = upstream_request_of target u (accumulate (chunks req))
      ∧ upstream_requests (server net req) = [up].
Proof.
  intros Hup.
  assert (upstream_requests (server net req) ≠ []) as Hne.
  { intros Hnil. rewrite Hnil in Hup. by apply elem_of_nil in Hup. }
  apply upstream_needs_allowed_string in Hne as (Ho & Hm & target & Hq & Ht & Ha).
  split; [done|]. split; [done|].
  pose proof Ha as Ha'. apply isAllowedUrl_spec in Ha' as (u & _ & Hu & _).
  cbn [to_string] in Hu. exists target, u.
  rewrite (server_forwarding net req target u Ho Hm Hq Ht Hu Ha) in Hup |- *.
  cbv zeta in Hup |- *.
  destruct (net _); cbn [upstream_requests] in Hup |- *;
    apply list_elem_of_singleton in Hup as ->; done.
Qed.

(** X1: the listener does not look at the method beyond the preflight test:
    two requests that differ only in a method other than OPTIONS are
    answered alike, and whatever goes upstream goes as a POST. *)
Theorem method_is_not_checked `{Platform} (net : network)
    (req1 req2 : IncomingMessage) :
  method req1 ≠ "OPTIONS" →
  method req2 ≠ "OPTIONS" →
  url req1 = url req2 →
  chunks req1 = chunks req2 →
  server net req1 = server net req2
  ∧ ∀ up, up ∈ upstream_requests (server net req1) →
          opt_method (up_options up) = "POST".
Proof.
  intros Ho1 Ho2 Hurl Hchunks. split.
  - unfold server.
    apply String.eqb_neq in Ho1 as ->. apply String.eqb_neq in Ho2 as ->.
    by rewrite Hurl, Hchunks.
  - intros up (_ & _ & target & u & _ & _ & _ & _ & -> & _)%upstream_request_made.
    reflexivity.
Qed.

(** X2: the headers of a response are fixed by the listener alone: the
    three CORS headers on a preflight answer, these and
    [Content-Type: application/json] on every other one; no header of the
    upstream is passed on. *)
Theorem response_headers_are_fixed `{Platform} (net : network)
    (req : IncomingMessage) (r : response) :
  response_of (server net req) = Some r →
  headers r =
  if String.eqb (method req) "OPTIONS" then CORS_HEADERS else JSON_CORS_HEADERS.
Proof.
  unfold server.
  destruct (String.eqb (method req) "OPTIONS"); [intros [= <-]; reflexivity|].
  destruct (pathname (url_parse (url req))) as [p|]; [|intros [= <-]; reflexivity].
  destruct (_ || _); [|intros [= <-]; reflexivity].
  destruct (if truthy _ then _ else _) as [t|]; [|discriminate].
  destruct (negb (truthy t)); [intros [= <-]; reflexivity|].
  destruct (negb (isAllowedUrl t)); [intros [= <-]; reflexivity|].
  destruct (fetchUrl _ _ _) as [[up [msg|code hs data]]|]; [| |discriminate].
  all: intros [= <-]; reflexivity.
Qed.

Lemma encode_cp_not_nil (c : Z) : encode_cp c ≠ [].
Proof.
  unfold encode_cp.
  destruct (c <? 0x80); [done|]. destruct (c <? 0x800); [done|].
  destruct (c <? 0x10000); [|done]. by destruct (_ && _).
Qed.

(** X3: the [Content-Length] the relay announces upstream is the number of
    bytes it writes, and the header is left out exactly when it writes
    nothing. *)
Theorem content_length_matches_body `{Platform} (net : network)
    (req : IncomingMessage) (up : upstream_request) :
  up ∈ upstream_requests (server net req) →
  up_written up = utf8_encode (accumulate (chunks req))
  ∧ match opt_content_length (up_options up) with
    | Some n => n = length (up_written up) ∧ up_written up ≠ []
    | None => up_written up = []
    end.
Proof.
  intros (_ & _ & target & u & _ & _ & _ & _ & -> & _)%upstream_request_made.
  unfold upstream_request_of. cbn [up_written up_options opt_content_length].
  destruct (accumulate (chunks req)) as [|c t]; [done|].
  split; [done|]. split; [reflexivity|].
  unfold utf8_encode. cbn [flat_map]. intros [Hc _]%app_eq_nil.
  by apply encode_cp_not_nil in Hc.
Qed.

(** X4: a request on the proxy path that gives the [url] parameter more
    than once, with a joined value that passes the check, is never
    answered and nothing is sent upstream: [fetchUrl] throws on
    [targetUrl.startsWith], which an array does not have, and nobody
    catches it. *)
Theorem repeated_url_parameter_is_uncaught `{Platform} (net : network)
    (req : IncomingMessage) (vs : list string) :
  method req ≠ "OPTIONS" →
  matched (pathname (url_parse (url req))) →
  query_url (url_parse (url req)) = JArray vs →
  isAllowedUrl (JArray vs) = true →
  server net req = Uncaught
  ∧ response_of (server net req) = None
  ∧ upstream_requests (server net req) = [].
Proof.
  intros Ho Hm Hq Ha.
  assert (server net req = Uncaught) as ->; [|done].
  rewrite (server_proxy net req Ho Hm). cbv zeta. rewrite Hq, Ha. reflexivity.
Qed.

(** X6: the allow check is a substring test: a target whose hostname has
    an allow-listed name anywhere inside it is forwarded to that hostname. *)
Theorem substring_host_is_forwarded `{Platform} (net : network)
    (req : IncomingMessage) (target : string) (u : URLRecord) (host : string) :
  method req ≠ "OPTIONS" →
  matched (pathname (url_parse (url req))) →
  query_url (url_parse (url req)) = JString target →
  target ≠ "" →
  URL_new target = Some u →
  host ∈ ALLOWED_HOSTS →
  contains (hostname u) host →
  ∃ r up, server net req = Responded r [up]
          ∧ opt_hostname (up_options up) = hostname u.
Proof.
  intros Ho Hm Hq Ht Hu Hin Hc.
  assert (isAllowedUrl (JString target) = true) as Ha.
  { apply isAllowedUrl_spec. by exists u, host. }
  rewrite (server_forwarding net req target u Ho Hm Hq Ht Hu Ha). cbv zeta.
  destruct (net _); eauto.
Qed.

(** The module an upstream request goes through is chosen by the first
    five characters of the target as given, its port by the parsed URL. *)
Lemma module_and_port_selection `{Platform} (net : network)
    (req : IncomingMessage) (up : upstream_request) :
  up ∈ upstream_requests (server net req) →
  ∃ target u,
    query_url (url_parse (url req)) = JString target
    ∧ URL_new target = Some u
    ∧ up_module up = (if startsWith target "https" then ModHttps else ModHttp)
    ∧ opt_port (up_options up) =
      (if negb (String.eqb (port u) "") then PortString (port u)
       else if String.eqb (protocol u) "https:" then PortNumber 443
            else PortNumber 80).
Proof.
  intros (_ & _ & target & u & Hq & _ & Hu & _ & -> & _)%upstream_request_made.
  by exists target, u.
Qed.

(** X7: module and port are chosen from different things and need not
    agree: a target that parses as an [https:] URL without a port, but does
    not begin with the five characters [https] as given (its scheme is in
    upper case, say), is sent through the plain [http] module to port 443. *)
Theorem plain_http_to_port_443 `{Platform} (net : network)
    (req : IncomingMessage) (up : upstream_request) (target : string)
    (u : URLRecord) :
  up ∈ upstream_requests (server net req) →
  query_url (url_parse (url req)) = JString target →
  URL_new target = Some u →
  startsWith target "https" = false →
  protocol u = "https:" →
  port u = "" →
  up_module up = ModHttp ∧ opt_port (up_options up) = PortNumber 443.
Proof.
  intros (target' & u' & Hq' & Hu' & -> & ->)%module_and_port_selection Hq Hu Hs Hp Hport.
  rewrite Hq in Hq'. injection Hq' as <-. rewrite Hu in Hu'. injection Hu' as <-.
  by rewrite Hs, Hp, Hport.
Qed.
End RelayExtras.

(** ** The localStorage stand-in *)

Module LocalStorageMockFacts.
Import LocalStorageMock.

Lemma getItem_absent (key : string) (store : gmap string string) :
  store !! key = None →
  getItem key store
  = if bool_decide (key ∈ OBJECT_PROTOTYPE_KEYS) then Inherited else Null.
Proof. intros Hk. unfold getItem. by rewrite Hk. Qed.

(** X8: what [setItem] stores under a key other than [__proto__] is what
    [getItem] reads back, as a string, and no other key reads differently;
    under [__proto__] nothing is stored at all. *)
Theorem stored_item_is_read_back (key : string) (value : Js.value)
    (store : gmap string string) :
  key ≠ "__proto__" →
  getItem key (setItem key value store) = Stored (Js.to_string value)
  ∧ (∀ other, other ≠ key →
              getItem other (setItem key value store) = getItem other store)
  ∧ getItem "__proto__" (setItem "__proto__" value (clear store)) = Inherited.
Proof.
  intros Hkey. unfold setItem.
  apply String.eqb_neq in Hkey as ->. split; [|split].
  - unfold getItem. by rewrite lookup_insert_eq.
  - intros other Hother. unfold getItem. by rewrite lookup_insert_ne.
  - reflexivity.
Qed.

(** X9: after [removeItem] a key reads as [null], and so does every key
    after [clear], unless it names a property of [Object.prototype]: such a
    key reads as that property; [removeItem] leaves the other keys alone. *)
Theorem removed_item_reads_null_or_inherited (key : string)
    (store : gmap string string) :
  getItem key (removeItem key store)
  = (if bool_decide (key ∈ OBJECT_PROTOTYPE_KEYS) then Inherited else Null)
  ∧ getItem key (clear store)
    = (if bool_decide (key ∈ OBJECT_PROTOTYPE_KEYS) then Inherited else Null)
  ∧ ∀ other, other ≠ key →
             getItem other (removeItem key store) = getItem other store.
Proof.
  split; [|split].
  - apply getItem_absent, lookup_delete_eq.
  - apply getItem_absent, lookup_empty.
  - intros other Hother. unfold getItem, removeItem.
    by rewrite lookup_delete_ne.
Qed.
End LocalStorageMockFacts.

(** ** Concrete runs for the facts above *)

Module ExtraRuns.
Import Text Js Relay RelayShapes TextFacts RelayFacts Samples RelayExtras.
Import LocalStorageMock LocalStorageMockFacts.

(** A GET with the same target and body is answered like the POST, and
    goes upstream as a POST. *)
Lemma method_is_not_checked_witness :
  server (H := Node.reference) (answering [EMPTY_OBJECT])
    {| method := "GET"; url := "/proxy?url=https://www.youtube.com/youtubei/v1/search";
       chunks := [EMPTY_OBJECT] |}
  = server (H := Node.reference) (answering [EMPTY_OBJECT])
      (post "/proxy?url=https://www.youtube.com/youtubei/v1/search" [EMPTY_OBJECT])
  ∧ ∀ up, up ∈ upstream_requests
                 (server (H := Node.reference) (answering [EMPTY_OBJECT])
                    {| method := "GET";
                       url := "/proxy?url=https://www.youtube.com/youtubei/v1/search";
                       chunks := [EMPTY_OBJECT] |}) →
          opt_method (up_options up) = "POST".
Proof.
  apply (method_is_not_checked (H := Node.reference)); [discriminate..|done|done].
Defined.

(** The headers of a forwarded answer whose upstream sent headers of its
    own. *)
Lemma response_headers_are_fixed_witness :
  ∃ r up,
    server (H := Node.reference)
      (fun _ => UpResponse 200 [("Content-Type", "text/html"); ("Set-Cookie", "a=b")]
                  [EMPTY_OBJECT])
      (post "/proxy?url=https://www.youtube.com/youtubei/v1/search" [])
    = Responded r [up]
    ∧ headers r = JSON_CORS_HEADERS.
Proof.
  do 2 eexists. split; [reflexivity|].
  apply (response_headers_are_fixed (H := Node.reference)
           (fun _ => UpResponse 200 [("Content-Type", "text/html"); ("Set-Cookie", "a=b")]
                       [EMPTY_OBJECT])
           (post "/proxy?url=https://www.youtube.com/youtubei/v1/search" [])).
  reflexivity.
Defined.

(** A two-byte body is announced as two bytes; no body, no header. *)
Lemma content_length_matches_body_witness :
  (∃ up,
     upstream_requests
       (server (H := Node.reference) (answering [])
          (post "/proxy?url=https://www.youtube.com/youtubei/v1/search" [EMPTY_OBJECT]))
     = [up]
     ∧ up_written up = EMPTY_OBJECT
     ∧ opt_content_length (up_options up) = Some 2%nat)
  ∧ (∃ up,
       upstream_requests
         (server (H := Node.reference) (answering [])
            (post "/proxy?url=https://www.youtube.com/youtubei/v1/search" []))
       = [up]
       ∧ up_written up = []
       ∧ opt_content_length (up_options up) = None).
Proof.
  split.
  - eexists. split; [reflexivity|].
    match goal with |- up_written ?u = _ ∧ _ =>
      destruct (content_length_matches_body (H := Node.reference) (answering [])
                  (post "/proxy?url=https://www.youtube.com/youtubei/v1/search"
                     [EMPTY_OBJECT]) u) as [Hw _]
    end.
    + apply list_elem_of_singleton. reflexivity.
    + split; [rewrite Hw; reflexivity|reflexivity].
  - eexists. split; [reflexivity|].
    match goal with |- up_written ?u = _ ∧ _ =>
      destruct (content_length_matches_body (H := Node.reference) (answering [])
                  (post "/proxy?url=https://www.youtube.com/youtubei/v1/search" []) u)
        as [Hw _]
    end.
    + apply list_elem_of_singleton. reflexivity.
    + split; [rewrite Hw; reflexivity|reflexivity].
Defined.

(** A repeated [url] parameter whose joined value passes the check. *)
Lemma repeated_url_parameter_is_uncaught_witness :
  server (H := Node.reference) (answering [EMPTY_OBJECT])
    (post "/proxy?url=https://www.youtube.com/&url=b" [])
  = Uncaught
  ∧ response_of
      (server (H := Node.reference) (answering [EMPTY_OBJECT])
         (post "/proxy?url=https://www.youtube.com/&url=b" [])) = None
  ∧ upstream_requests
      (server (H := Node.reference) (answering [EMPTY_OBJECT])
         (post "/proxy?url=https://www.youtube.com/&url=b" [])) = [].
Proof.
  apply (repeated_url_parameter_is_uncaught (H := Node.reference)
           (answering [EMPTY_OBJECT])
           (post "/proxy?url=https://www.youtube.com/&url=b" [])
           ["https://www.youtube.com/"; "b"]).
  - discriminate.
  - by left.
  - reflexivity.
  - reflexivity.
Defined.

(** A host that only has an allow-listed name inside its own. *)
Lemma substring_host_is_forwarded_witness :
  ∃ r up,
    server (H := Node.reference) (answering [EMPTY_OBJECT])
      (post "/proxy?url=https://youtube.com.evil.example/youtubei/v1/search" [])
    = Responded r [up]
    ∧ opt_hostname (up_options up) = "youtube.com.evil.example".
Proof.
  apply (substring_host_is_forwarded (H := Node.reference) (answering [EMPTY_OBJECT])
           (post "/proxy?url=https://youtube.com.evil.example/youtubei/v1/search" [])
           "https://youtube.com.evil.example/youtubei/v1/search"
           {| protocol := "https:"; hostname := "youtube.com.evil.example";
              port := ""; url_pathname := "/youtubei/v1/search"; search := "" |}
           "youtube.com").
  - discriminate.
  - by left.
  - reflexivity.
  - discriminate.
  - reflexivity.
  - unfold ALLOWED_HOSTS. rewrite !elem_of_cons. auto.
  - by exists "", ".evil.example".
Defined.

(** A target with its scheme in upper case, on the platform that folds
    case as Node does. *)
Lemma plain_http_to_port_443_witness :
  ∃ up,
    upstream_requests
      (server (H := NodeFolding.folding) (answering [EMPTY_OBJECT])
         (post "/proxy?url=HTTPS://www.youtube.com/youtubei/v1/search" []))
    = [up]
    ∧ opt_hostname (up_options up) = "www.youtube.com"
    ∧ up_module up = ModHttp
    ∧ opt_port (up_options up) = PortNumber 443.
Proof.
  eexists. split; [reflexivity|]. split; [reflexivity|].
  apply (plain_http_to_port_443 (H := NodeFolding.folding) (answering [EMPTY_OBJECT])
           (post "/proxy?url=HTTPS://www.youtube.com/youtubei/v1/search" []) _
           "HTTPS://www.youtube.com/youtubei/v1/search"
           {| protocol := "https:"; hostname := "www.youtube.com";
              port := ""; url_pathname := "/youtubei/v1/search"; search := "" |}).
  - apply list_elem_of_singleton. reflexivity.
  - reflexivity.
  - reflexivity.
  - reflexivity.
  - reflexivity.
  - reflexivity.
Defined.

(** The index key of the cache, written and read back; a key of
    [Object.prototype] written over a cleared store. *)
Lemma stored_item_is_read_back_witness :
  getItem "yt_search_keys" (setItem "yt_search_keys" (JString "[]") ∅) = Stored "[]"
  ∧ (∀ other, other ≠ "yt_search_keys" →
              getItem other (setItem "yt_search_keys" (JString "[]") ∅)
              = getItem other ∅)
  ∧ getItem "__proto__" (setItem "__proto__" (JString "[]") (clear ∅)) = Inherited.
Proof.
  apply (stored_item_is_read_back "yt_search_keys" (JString "[]") ∅).
  discriminate.
Defined.
End ExtraRuns.
